(** * sharedb-memory-mongo: the in-memory ShareDB adapter of [index.js]

    A shallow embedding of [MemoryDB] (commit protocol, snapshot accessor,
    operation range reader, query normalizer and executor) and the
    properties of its specification that were checked against it.

    Modelling conventions.
    - Every public method runs its body inside [process.nextTick] and
      reports through a callback.  The model is the body as it runs at that
      tick: a function from the store to the new store and the arguments the
      callback receives.
    - Plain data is JSON ([json]); on it [JSON.parse(JSON.stringify(x))] is a
      structural copy.  Numbers that matter here (versions, limits) are
      integers and are kept in [Z].
    - A JavaScript object used as a record of own properties is an
      insertion-ordered association list (a [for ... in] loop visits the
      keys in that order; that JavaScript visits integer-like keys first
      is not modelled, and nothing below depends on the order of
      documents); [this.docs] and [this.ops], which are only looked up by
      collection name, are finite maps.
    - The store's lookups ([this.docs[collection][id]],
      [this.ops[collection][id]]) are modelled for collections and ids
      that [Object.prototype] does not define ([plain_name]): for a name
      such as [constructor] the code finds the inherited member instead
      of nothing.  The statements whose truth depends on it carry
      [plain_name] as a hypothesis.  [metaOperators[key]] is modelled with
      the inherited names.
    - [commit] stores the operation object it is given, without copying
      it; operations are values here, so a later change of that object by
      the caller is outside the model.
    - The [v] field of an operation or a snapshot is either absent
      ([None], JavaScript [undefined]) or an integer. *)

From Stdlib Require Import ZArith List Bool Lia.
From stdpp Require Import gmap strings list fin_maps.

Set Warnings "-register-all".

Local Open Scope string_scope.
Local Open Scope list_scope.
Local Open Scope Z_scope.

(** ** Plain data *)

Inductive json : Type :=
| JNull
| JBool (b : bool)
| JNum (n : Z)
| JStr (s : string)
| JArr (items : list json)
| JObj (props : list (string * json)).

(** [clone]: [JSON.parse(JSON.stringify(obj))] on plain data rebuilds the
    value node by node.  ([clone(undefined)] is [undefined]: see
    [clone_opt].) *)
Fixpoint clone (obj : json) : json :=
  match obj with
  | JNull => JNull
  | JBool b => JBool b
  | JNum n => JNum n
  | JStr s => JStr s
  | JArr items => JArr (map clone items)
  | JObj props => JObj (map (fun kv => let '(k, x) := kv in (k, clone x)) props)
  end.

Definition clone_opt (obj : option json) : option json :=
  match obj with
  | None => None
  | Some x => Some (clone x)
  end.

(** JavaScript truthiness of a property read ([None] is [undefined]). *)
Definition truthy (x : option json) : bool :=
  match x with
  | None => false
  | Some JNull => false
  | Some (JBool b) => b
  | Some (JNum n) => negb (n =? 0)
  | Some (JStr s) => negb (String.eqb s EmptyString)
  | Some (JArr _) => true
  | Some (JObj _) => true
  end.

(** ** Objects as insertion-ordered property lists *)

Section Obj.
Context {A : Type}.

(** [o[k]] *)
Fixpoint obj_get (k : string) (o : list (string * A)) : option A :=
  match o with
  | [] => None
  | (k', x) :: rest => if String.eqb k k' then Some x else obj_get k rest
  end.

(** [o[k] = x]: an existing property keeps its place, a new one goes last. *)
Fixpoint obj_set (k : string) (x : A) (o : list (string * A)) : list (string * A) :=
  match o with
  | [] => [(k, x)]
  | (k', y) :: rest =>
      if String.eqb k k' then (k, x) :: rest else (k', y) :: obj_set k x rest
  end.

(** [delete o[k]] *)
Fixpoint obj_delete (k : string) (o : list (string * A)) : list (string * A) :=
  match o with
  | [] => []
  | (k', y) :: rest =>
      if String.eqb k k' then obj_delete k rest else (k', y) :: obj_delete k rest
  end.

(** The keys a [for (var k in o)] loop visits. *)
Definition obj_keys (o : list (string * A)) : list string := map fst o.
End Obj.

(** ** Operations, snapshots and the store *)

(** An operation: its own [v] field and the rest of its content. *)
Record Op := { op_v : option Z; op_body : json }.

(** The snapshot handed to [commit]: [snapshot.v], [snapshot.type] (absent,
    null or the type name) and [snapshot.data] (absent or plain data). *)
Record Snapshot := {
  snap_v : option Z;
  snap_type : option string;
  snap_data : option json
}.

(** [new MemorySnapshot(id, version, type, data)]; [D] is what the [data]
    field holds. *)
Record MemorySnapshot {D : Type} := {
  ms_id : string;
  ms_v : option Z;
  ms_type : option string;
  ms_data : D
}.
Arguments MemorySnapshot : clear implicits.

(** The operation log is a JavaScript array: [slots] are its elements from
    index 0 to [length - 1], [None] where the array has a hole.  [named]
    holds what was assigned under a key that is not an array index (the key
    is kept as the [v] it was derived from); neither [length] nor [slice]
    sees those. *)
Record OpLog := {
  slots : list (option Op);
  named : list (option Z * Op)
}.

Definition empty_log : OpLog := {| slots := []; named := [] |}.

(** [opLog.length] *)
Definition log_length (opLog : OpLog) : Z := Z.of_nat (length (slots opLog)).

(** An array index is an integer between 0 and 2^32 - 2. *)
Definition is_array_index (n : Z) : bool := (0 <=? n) && (n <? 2 ^ 32 - 1).

(** [a[i] = x] on the elements of an array: in range the slot is replaced,
    past the end the array grows and the slots in between are holes. *)
Definition set_index {A : Type} (i : nat) (x : A) (a : list (option A)) : list (option A) :=
  if (i <? length a)%nat then <[i := Some x]> a
  else a ++ replicate (i - length a) None ++ [Some x].

(** [opLog[k] = op] *)
Definition array_set (opLog : OpLog) (k : option Z) (op : Op) : OpLog :=
  match k with
  | Some n =>
      if is_array_index n
      then {| slots := set_index (Z.to_nat n) op (slots opLog); named := named opLog |}
      else {| slots := slots opLog; named := named opLog ++ [(k, op)] |}
  | None => {| slots := slots opLog; named := named opLog ++ [(k, op)] |}
  end.

Inductive Err :=
| ConsistencyError (message : string).

Definition missing_parent_version : Err :=
  ConsistencyError "Internal consistancy error - database missing parent version".

(** [this.docs]: collection name -> doc id -> stored snapshot; [this.ops]:
    collection name -> doc id -> operation log. *)
Record MemoryDB := {
  docs : gmap string (list (string * Snapshot));
  ops : gmap string (gmap string OpLog);
  closed : bool
}.

Definition new_MemoryDB : MemoryDB := {| docs := ∅; ops := ∅; closed := false |}.

Definition close (db : MemoryDB) : MemoryDB :=
  {| docs := docs db; ops := ops db; closed := true |}.

Definition with_ops (db : MemoryDB) (o : gmap string (gmap string OpLog)) : MemoryDB :=
  {| docs := docs db; ops := o; closed := closed db |}.

Definition with_docs (db : MemoryDB) (d : gmap string (list (string * Snapshot))) : MemoryDB :=
  {| docs := d; ops := ops db; closed := closed db |}.

(** [_getVersionSync]: the length of the log, 0 when there is none.  It does
    not create anything.  (For a [plain_name] collection and id; an
    inherited id reads the [length] of the inherited function.) *)
Definition _getVersionSync (db : MemoryDB) (collection id : string) : Z :=
  match ops db !! collection with
  | Some collectionOps =>
      match collectionOps !! id with
      | Some opLog => log_length opLog
      | None => 0
      end
  | None => 0
  end.

(** [_getOpLogSync]: the log, created empty (with its collection) on first
    access.  (For a [plain_name] collection and id; for an inherited id
    the code takes the inherited function for the log.) *)
Definition _getOpLogSync (db : MemoryDB) (collection id : string) : MemoryDB * OpLog :=
  match ops db !! collection with
  | Some collectionOps =>
      match collectionOps !! id with
      | Some opLog => (db, opLog)
      | None => (with_ops db (<[collection := <[id := empty_log]> collectionOps]> (ops db)), empty_log)
      end
  | None => (with_ops db (<[collection := {[id := empty_log]}]> (ops db)), empty_log)
  end.

(** The log as a reader finds it, without creating it. *)
Definition peek_log (db : MemoryDB) (collection id : string) : OpLog :=
  snd (_getOpLogSync db collection id).

(** The array held at [this.ops[collection][id]] is updated in place. *)
Definition store_log (db : MemoryDB) (collection id : string) (opLog : OpLog) : MemoryDB :=
  with_ops db (<[collection := <[id := opLog]> (default ∅ (ops db !! collection))]> (ops db)).

(** [opLog.length < op.v - 1]; with [op.v] absent the right side is NaN and
    the comparison is false. *)
Definition missing_parent (opLog : OpLog) (op : Op) : bool :=
  match op_v op with
  | Some v => log_length opLog <? v - 1
  | None => false
  end.

(** [_writeOpSync]: returns the error, if any. *)
Definition _writeOpSync (db : MemoryDB) (collection id : string) (op : Op)
  : MemoryDB * option Err :=
  let '(db1, opLog) := _getOpLogSync db collection id in
  if missing_parent opLog op then (db1, Some missing_parent_version)
  else (store_log db1 collection id (array_set opLog (op_v op) op), None).

(** [!snapshot.type] *)
Definition no_type (t : option string) : bool :=
  match t with
  | None => true
  | Some s => String.eqb s EmptyString
  end.

(** [clone(snapshot)] *)
Definition clone_snapshot (snapshot : Snapshot) : Snapshot :=
  {| snap_v := snap_v snapshot;
     snap_type := snap_type snapshot;
     snap_data := clone_opt (snap_data snapshot) |}.

(** [_writeSnapshotSync]: never returns an error. *)
Definition _writeSnapshotSync (db : MemoryDB) (collection id : string) (snapshot : Snapshot)
  : MemoryDB :=
  let collectionDocs := default [] (docs db !! collection) in
  if no_type (snap_type snapshot)
  then with_docs db (<[collection := obj_delete id collectionDocs]> (docs db))
  else with_docs db (<[collection := obj_set id (clone_snapshot snapshot) collectionDocs]> (docs db)).

(** [_getSnapshotSync]: a stored document is returned with its data
    cloned; otherwise the snapshot has the version of the log, a null type
    and null data.  (For a [plain_name] collection and id; for an
    inherited id in a collection that has documents the code takes the
    inherited function for the document.) *)
Definition _getSnapshotSync (db : MemoryDB) (collection id : string)
  : MemorySnapshot (option json) :=
  let sentinel :=
    {| ms_id := id; ms_v := Some (_getVersionSync db collection id);
       ms_type := None; ms_data := Some JNull |} in
  match docs db !! collection with
  | Some collectionDocs =>
      match obj_get id collectionDocs with
      | Some doc =>
          {| ms_id := id; ms_v := snap_v doc; ms_type := snap_type doc;
             ms_data := clone_opt (snap_data doc) |}
      | None => sentinel
      end
  | None => sentinel
  end.

(** What the callback of [commit] receives: [callback(null, succeeded)] or
    [callback(err)]. *)
Inductive CommitResult :=
| Succeeded (succeeded : bool)
| Failed (err : Err).

(** [snapshot.v !== version + 1] *)
Definition not_next_version (v : option Z) (version : Z) : bool :=
  match v with
  | Some n => negb (n =? version + 1)
  | None => true
  end.

(** [commit] *)
Definition commit (db : MemoryDB) (collection id : string) (op : Op) (snapshot : Snapshot)
  : MemoryDB * CommitResult :=
  let version := _getVersionSync db collection id in
  if not_next_version (snap_v snapshot) version then (db, Succeeded false)
  else
    match _writeOpSync db collection id op with
    | (db1, Some err) => (db1, Failed err)
    | (db1, None) => (_writeSnapshotSync db1 collection id snapshot, Succeeded true)
    end.

(** [getSnapshot]: the callback receives [(null, snapshot)]; [fields] is
    not used. *)
Definition getSnapshot (db : MemoryDB) (collection id : string) (fields : option json)
  : option Err * MemorySnapshot (option json) :=
  (None, _getSnapshotSync db collection id).

(** The index a bound of [slice] stands for in an array of length [len]: a
    negative bound counts from the end, and the result is clamped to
    [0..len]. *)
Definition relative_index (len x : Z) : Z :=
  if x <? 0 then Z.max (len + x) 0 else Z.min x len.

(** [a.slice(start, end)] *)
Definition slice {A : Type} (a : list A) (start end_ : Z) : list A :=
  let len := Z.of_nat (length a) in
  let k := relative_index len start in
  let final := relative_index len end_ in
  take (Z.to_nat (final - k)) (drop (Z.to_nat k) a).

Definition clone_op (op : Op) : Op :=
  {| op_v := op_v op; op_body := clone (op_body op) |}.

(** [clone] of an array of operations: a hole is serialized as [null]
    ([None] in the result), an operation is copied. *)
Definition clone_ops (a : list (option Op)) : list (option Op) :=
  map (option_map clone_op) a.

(** [getOps]: [to] is [None] when it is null or not given; the callback
    receives [(null, ops)]. *)
Definition getOps (db : MemoryDB) (collection id : string) (from : Z) (to : option Z)
  : MemoryDB * (option Err * list (option Op)) :=
  let '(db1, opLog) := _getOpLogSync db collection id in
  let to' := match to with None => log_length opLog | Some t => t end in
  (db1, (None, clone_ops (slice (slots opLog) from to'))).

(** ** Query normalization *)

Definition metaOperators : list string :=
  ["$comment"; "$explain"; "$hint"; "$maxScan"; "$max"; "$min"; "$orderby";
   "$returnKey"; "$showDiskLoc"; "$snapshot"; "$count"; "$aggregate"].

Definition cursorOperators : list (string * string) :=
  [("$limit", "limit"); ("$skip", "skip")].

(** The property names every plain object inherits from
    [Object.prototype].  Each of them reads as a truthy value (a function,
    or the prototype itself for [__proto__]) on an object that does not
    define it. *)
Definition Object_prototype : list string :=
  ["constructor"; "__defineGetter__"; "__defineSetter__"; "hasOwnProperty";
   "__lookupGetter__"; "__lookupSetter__"; "isPrototypeOf"; "propertyIsEnumerable";
   "toString"; "valueOf"; "__proto__"; "toLocaleString"].

Definition inherited (name : string) : bool := existsb (String.eqb name) Object_prototype.

(** A name that [Object.prototype] does not define: on such a name a
    lookup in a plain object finds an own property or nothing. *)
Definition plain_name (name : string) : Prop := inherited name = false.

(** [metaOperators[key]]: truthy for the keys of the table (every entry is
    [true]) and, the table being a plain object, for the names it
    inherits. *)
Definition is_meta (key : string) : bool :=
  existsb (String.eqb key) metaOperators || inherited key.

(** One round of the [for (var key in expression)] loop on [query]. *)
Definition normalize_key (expression query : list (string * json)) (key : string)
  : list (string * json) :=
  match obj_get key expression with
  | None => query
  | Some x =>
      if is_meta key then
        (* query[key] = expression[key]; for [__proto__] the assignment goes
           to the prototype setter and creates no own property (the
           prototype it may install is not part of the result modelled
           here) *)
        if String.eqb key "__proto__" then query else obj_set key x query
      else
        match obj_get key cursorOperators with
        | Some name =>
            (* query.$findOptions || (query.$findOptions = {}) *)
            let findOptions :=
              match obj_get "$findOptions" query with
              | Some (JObj fo) => fo
              | _ => []
              end in
            obj_set "$findOptions" (JObj (obj_set name x findOptions)) query
        | None =>
            match obj_get "$query" query with
            | Some (JObj q) => obj_set "$query" (JObj (obj_set key x q)) query
            | _ => query
            end
        end
  end.

(** [normalizeQuery] *)
Definition normalizeQuery (expression : list (string * json)) : list (string * json) :=
  if truthy (obj_get "$query" expression) then
    match clone (JObj expression) with
    | JObj query =>
        match obj_get "$query" query with
        | Some q => obj_set "$query" (clone q) query
        | None => query
        end
    | _ => expression
    end
  else
    fold_left (normalize_key expression) (obj_keys expression) [("$query", JObj [])].

(** ** Query execution *)

(** The executor builds objects that refer to each other, so what it
    returns lives in a heap: a value is [undefined], a primitive, or a
    reference to a heap object. *)
Inductive jsval :=
| VUndefined
| VPrim (j : json)
| VRef (r : nat).

(** A heap object is either a [MemorySnapshot] or the clone of a document
    body (an object or an array) together with its [__snapshot] property,
    once that has been assigned. *)
Inductive cell :=
| CSnapshot (s : MemorySnapshot jsval)
| CData (body : json) (__snapshot : option nat).

Abbreviation heap := (list cell).

Definition alloc (h : heap) (c : cell) : heap * nat := (h ++ [c], length h).

Definition is_object (j : json) : bool :=
  match j with
  | JArr _ | JObj _ => true
  | _ => false
  end.

(** The objects a call of [_getSnapshotSync] returns, made fresh in the
    heap: the cloned data first, then the [MemorySnapshot] holding it. *)
Definition new_snapshot (h : heap) (s : MemorySnapshot (option json)) : heap * nat * jsval :=
  let '(h1, data) :=
    match ms_data s with
    | None => (h, VUndefined)
    | Some j =>
        if is_object j
        then let '(h', r) := alloc h (CData j None) in (h', VRef r)
        else (h, VPrim j)
    end in
  let '(h2, r) :=
    alloc h1 (CSnapshot {| ms_id := ms_id s; ms_v := ms_v s; ms_type := ms_type s;
                           ms_data := data |}) in
  (h2, r, data).

(** [data.__snapshot = snapshot]; [None] is the TypeError thrown when
    [data] is [undefined] or [null].  On another primitive the assignment
    is dropped (the file is not in strict mode). *)
Definition set___snapshot (h : heap) (data : jsval) (snapshot : nat) : option heap :=
  match data with
  | VUndefined => None
  | VPrim JNull => None
  | VPrim _ => Some h
  | VRef r =>
      match h !! r with
      | Some (CData body _) => Some (<[r := CData body (Some snapshot)]> h)
      | _ => Some h
      end
  end.

(** [result.__snapshot]; [None] is the TypeError on [undefined] or [null].
    (An object that was never tagged reads as having no such property:
    the candidates of [query] are all tagged.) *)
Definition get___snapshot (h : heap) (result : jsval) : option jsval :=
  match result with
  | VUndefined => None
  | VPrim JNull => None
  | VPrim _ => Some VUndefined
  | VRef r =>
      match h !! r with
      | Some (CData _ (Some s)) => Some (VRef s)
      | _ => Some VUndefined
      end
  end.

(** The candidate loop of find mode over the ids of the collection. *)
Fixpoint collect (db : MemoryDB) (collection : string) (ids : list string)
    (h : heap) (datas : list jsval) : option (heap * list jsval) :=
  match ids with
  | [] => Some (h, datas)
  | id :: rest =>
      let '(h1, snapshot, data) := new_snapshot h (_getSnapshotSync db collection id) in
      match set___snapshot h1 data snapshot with
      | None => None
      | Some h2 => collect db collection rest h2 (datas ++ [data])
      end
  end.

(** The loop that maps the evaluator's results back to snapshots. *)
Fixpoint resolve (h : heap) (results : list jsval) : option (list jsval) :=
  match results with
  | [] => Some []
  | result :: rest =>
      match get___snapshot h result with
      | None => None
      | Some snapshot =>
          match resolve h rest with
          | None => None
          | Some snapshots => Some (snapshot :: snapshots)
          end
      end
  end.

(** The third argument of the callback. *)
Inductive Extra :=
| Aggregated (result : json)
| Counted (n : nat).

(** What a call of [query] ends in: the callback is called with
    [(null, snapshots, extra)], the snapshots being values over [h], or a
    TypeError escapes the tick. *)
Inductive QueryResult :=
| Called (h : heap) (snapshots : list jsval) (extra : option Extra)
| Threw.

(** The ids a [for (var id in collectionDocs)] loop visits, in insertion
    order (integer-like ids, which the loop visits first, are not moved:
    the statements below are about membership only); none when
    [this.docs[collection]] is undefined. *)
Definition candidates (db : MemoryDB) (collection : string) : list string :=
  match docs db !! collection with
  | Some collectionDocs => obj_keys collectionDocs
  | None => []
  end.

Section Query.
(** The external evaluator (mingo).  [Mingo_Query_find args h datas] is
    [new Mingo.Query(args...).find(datas).all()], [args] being the
    arguments the constructor is called with; [Mingo_Aggregator_run] is
    [new Mingo.Aggregator(pipeline).run(datas)]. *)
Variable Mingo_Query_find : list (option json) -> heap -> list jsval -> list jsval.
Variable Mingo_Aggregator_run : option json -> list (option json) -> json.

(** [query]; [fields] and [options] are not used. *)
Definition query (db : MemoryDB) (collection : string) (expression : list (string * json))
    (fields options : option json) : QueryResult :=
  let ids := candidates db collection in
  let query := normalizeQuery expression in
  if truthy (obj_get "$aggregate" query) then
    let datas := map (fun id => ms_data (_getSnapshotSync db collection id)) ids in
    Called [] [] (Some (Aggregated (Mingo_Aggregator_run (obj_get "$aggregate" query) datas)))
  else
    match collect db collection ids [] [] with
    | None => Threw
    | Some (h, datas) =>
        let results := Mingo_Query_find [obj_get "$query" query] h datas in
        if truthy (obj_get "$count" query) then Called h [] (Some (Counted (length results)))
        else
          match resolve h results with
          | None => Threw
          | Some snapshots => Called h snapshots None
          end
    end.
End Query.

(** ** Definitions used in the statements *)

(** The store after both writes of an accepted commit. *)
Definition committed (db : MemoryDB) (collection id : string) (op : Op) (snapshot : Snapshot)
  : MemoryDB :=
  _writeSnapshotSync
    (store_log (fst (_getOpLogSync db collection id)) collection id
       (array_set (peek_log db collection id) (op_v op) op))
    collection id snapshot.

(** One call of [commit]. *)
Record Call := {
  call_collection : string;
  call_id : string;
  call_op : Op;
  call_snapshot : Snapshot
}.

Definition run_call (db : MemoryDB) (k : Call) : MemoryDB :=
  fst (commit db (call_collection k) (call_id k) (call_op k) (call_snapshot k)).

(** The store after a sequence of commit calls, each awaited in turn. *)
Definition run_calls (db : MemoryDB) (calls : list Call) : MemoryDB :=
  fold_left run_call calls db.

(** The call names a collection and a document that [Object.prototype]
    does not define. *)
Definition plain_call (k : Call) : Prop :=
  plain_name (call_collection k) /\ plain_name (call_id k).

(** The caller's convention: the operation carries the version it applies
    to, one less than the version of the resulting snapshot (and versions
    stay below the largest length an array can have). *)
Definition in_step (k : Call) : Prop :=
  forall m, snap_v (call_snapshot k) = Some m ->
            op_v (call_op k) = Some (m - 1) /\ m < 2 ^ 32.

(** Every stored snapshot carries the length of its log. *)
Definition versions_agree (db : MemoryDB) : Prop :=
  forall c collectionDocs i doc,
    docs db !! c = Some collectionDocs ->
    obj_get i collectionDocs = Some doc ->
    snap_v doc = Some (log_length (peek_log db c i)).

(** The creation of document [a] and one edit of it. *)
Definition two_commits : list Call :=
  [ {| call_collection := "docs"; call_id := "a";
       call_op := {| op_v := Some 0; op_body := JStr "create" |};
       call_snapshot := {| snap_v := Some 1; snap_type := Some "json0";
                           snap_data := Some (JObj [("n", JNum 1)]) |} |};
    {| call_collection := "docs"; call_id := "a";
       call_op := {| op_v := Some 1; op_body := JStr "edit" |};
       call_snapshot := {| snap_v := Some 2; snap_type := Some "json0";
                           snap_data := Some (JObj [("n", JNum 2)]) |} |} ].

(** A store whose document [a] has a log of three operations. *)
Definition three_ops : MemoryDB :=
  store_log new_MemoryDB "docs" "a"
    {| slots := [Some {| op_v := Some 0; op_body := JStr "a" |};
                 Some {| op_v := Some 1; op_body := JStr "b" |};
                 Some {| op_v := Some 2; op_body := JStr "c" |}];
       named := [] |}.

(** [cursorOperators[key]] as a test (the names in the table are not
    empty). *)
Definition is_cursor (key : string) : bool :=
  match obj_get key cursorOperators with
  | Some _ => true
  | None => false
  end.

(** [visited key seen]: the loop has been through [key]. *)
Definition visited (key : string) (seen : list string) : bool :=
  existsb (String.eqb key) seen.

(** What the loop of the flat branch has built once it has been through the
    keys [seen] of [expression]. *)
Record flat_state (expression : list (string * json)) (seen : list string)
    (query : list (string * json)) : Prop := {
  fs_selector : exists q,
    obj_get "$query" query = Some (JObj q)
    /\ forall k, obj_get k q
                 = if visited k seen && negb (is_meta k) && negb (is_cursor k)
                   then obj_get k expression else None;
  fs_meta : forall k, is_meta k = true ->
    obj_get k query = if visited k seen then obj_get k expression else None;
  fs_cursor : forall key name, obj_get key cursorOperators = Some name ->
    match obj_get "$findOptions" query with
    | None => visited key seen = true -> obj_get key expression = None
    | Some (JObj fo) =>
        obj_get name fo = if visited key seen then obj_get key expression else None
    | Some _ => False
    end;
  fs_rest : forall k, k <> "$query" -> k <> "$findOptions" -> is_meta k = false ->
    obj_get k query = None
}.





(** An evaluator that matches every candidate and honours a [limit] given
    in the second argument of the [Mingo.Query] constructor. *)
Definition find_with_limit (args : list (option json)) (h : heap) (datas : list jsval)
  : list jsval :=
  match args with
  | [_; Some (JObj opts)] =>
      match obj_get "limit" opts with
      | Some (JNum n) => take (Z.to_nat n) datas
      | _ => datas
      end
  | _ => datas
  end.

(** An aggregator that returns the documents it is given. *)
Definition collect_documents (pipeline : option json) (datas : list (option json)) : json :=
  JArr (omap id datas).

(** The creation of documents [a] and [b]. *)
Definition create_a : Call :=
  {| call_collection := "docs"; call_id := "a";
     call_op := {| op_v := Some 0; op_body := JStr "create a" |};
     call_snapshot := {| snap_v := Some 1; snap_type := Some "json0";
                         snap_data := Some (JObj [("name", JStr "x")]) |} |}.

Definition create_b : Call :=
  {| call_collection := "docs"; call_id := "b";
     call_op := {| op_v := Some 0; op_body := JStr "create b" |};
     call_snapshot := {| snap_v := Some 1; snap_type := Some "json0";
                         snap_data := Some (JObj [("name", JStr "y")]) |} |}.

(** A store with two documents. *)
Definition two_docs : MemoryDB := run_calls new_MemoryDB [create_a; create_b].


(** The array stored at [this.ops[collection][id]], the empty array when
    there is none. *)
Definition stored_log (db : MemoryDB) (collection id : string) : OpLog :=
  default empty_log (ops db !! collection ≫= lookup id).


(** A candidate that is an object belongs to a snapshot in the heap that
    carries what [_getSnapshotSync] reports for its document: the same
    version and type, and the candidate's body as data. *)
Definition mirrors (db : MemoryDB) (collection : string) (h : heap) (data : jsval) : Prop :=
  forall d, data = VRef d ->
    exists s ms body,
      h !! d = Some (CData body (Some s))
      /\ h !! s = Some (CSnapshot ms)
      /\ ms_data ms = VRef d
      /\ In (ms_id ms) (candidates db collection)
      /\ ms_v ms = ms_v (_getSnapshotSync db collection (ms_id ms))
      /\ ms_type ms = ms_type (_getSnapshotSync db collection (ms_id ms))
      /\ ms_data (_getSnapshotSync db collection (ms_id ms)) = Some body.



(** * Properties *)

(** ** Property lists *)

Section ObjFacts.
Context {A : Type}.
Implicit Types (o : list (string * A)) (k : string).

Lemma obj_get_set_eq k x o : obj_get k (obj_set k x o) = Some x.
Proof.
  induction o as [|[k' y] rest IH]; simpl.
  - by rewrite String.eqb_refl.
  - destruct (String.eqb k k') eqn:E; simpl; rewrite ?String.eqb_refl, ?E; done.
Qed.

Lemma obj_get_set_ne k k' x o : k <> k' -> obj_get k' (obj_set k x o) = obj_get k' o.
Proof.
  intros Hne. induction o as [|[k0 y] rest IH]; simpl.
  - destruct (String.eqb k' k) eqn:E; [|done].
    apply String.eqb_eq in E. congruence.
  - destruct (String.eqb k k0) eqn:E; simpl.
    + apply String.eqb_eq in E. subst k0.
      destruct (String.eqb k' k) eqn:E'; [|done].
      apply String.eqb_eq in E'. congruence.
    + by rewrite IH.
Qed.

Lemma obj_get_delete_eq k o : obj_get k (obj_delete k o) = None.
Proof.
  induction o as [|[k' y] rest IH]; simpl; [done|].
  destruct (String.eqb k k') eqn:E; simpl; rewrite ?E; done.
Qed.

Lemma obj_get_delete_ne k k' o : k <> k' -> obj_get k' (obj_delete k o) = obj_get k' o.
Proof.
  intros Hne. induction o as [|[k0 y] rest IH]; simpl; [done|].
  destruct (String.eqb k k0) eqn:E; simpl.
  - apply String.eqb_eq in E. subst k0.
    destruct (String.eqb k' k) eqn:E'; [|done].
    apply String.eqb_eq in E'. congruence.
  - by rewrite IH.
Qed.


Lemma obj_get_In_keys k x o : obj_get k o = Some x -> In k (obj_keys o).
Proof.
  induction o as [|[k' y] rest IH]; simpl; [done|].
  destruct (String.eqb k k') eqn:E.
  - apply String.eqb_eq in E. auto.
  - auto.
Qed.


End ObjFacts.

(** ** Copies *)

(** [clone] returns a value equal to its argument (a deep copy of plain
    data): by induction over the nesting of arrays and objects. *)
Fixpoint clone_id (obj : json) : clone obj = obj.
Proof.
  destruct obj as [| b | n | s | items | props]; simpl; try reflexivity.
  - f_equal. induction items as [|x rest IH]; simpl; [reflexivity|].
    rewrite (clone_id x). by rewrite IH.
  - f_equal. induction props as [|[k x] rest IH]; simpl; [reflexivity|].
    rewrite (clone_id x). by rewrite IH.
Qed.


(** ** The store: logs and versions *)

Lemma docs_getOpLogSync db c i : docs (fst (_getOpLogSync db c i)) = docs db.
Proof.
  unfold _getOpLogSync.
  destruct (ops db !! c) as [co|]; [destruct (co !! i)|]; reflexivity.
Qed.

(** What a reader finds is the stored log, or the empty one. *)
Lemma peek_log_lookup db c i :
  peek_log db c i = default empty_log (ops db !! c ≫= lookup i).
Proof.
  unfold peek_log, _getOpLogSync.
  destruct (ops db !! c) as [co|]; simpl; [destruct (co !! i)|]; reflexivity.
Qed.

Lemma peek_stored db c i : peek_log db c i = stored_log db c i.
Proof. apply peek_log_lookup. Qed.



(** Creating the log on first access does not change what any reader
    finds. *)
Lemma peek_getOpLogSync db c i c' i' :
  peek_log (fst (_getOpLogSync db c i)) c' i' = peek_log db c' i'.
Proof.
  rewrite !peek_log_lookup. unfold _getOpLogSync.
  destruct (ops db !! c) as [co|] eqn:Hc.
  - destruct (co !! i) as [l|] eqn:Hi; simpl; [reflexivity|].
    destruct (decide (c' = c)) as [->|Hne].
    + rewrite lookup_insert_eq, Hc. simpl.
      destruct (decide (i' = i)) as [->|Hne'].
      * by rewrite lookup_insert_eq, Hi.
      * by rewrite lookup_insert_ne.
    + by rewrite lookup_insert_ne.
  - simpl. destruct (decide (c' = c)) as [->|Hne].
    + rewrite lookup_insert_eq, Hc. simpl.
      destruct (decide (i' = i)) as [->|Hne'].
      * by rewrite lookup_singleton_eq.
      * by rewrite lookup_singleton_ne.
    + by rewrite lookup_insert_ne.
Qed.

Lemma snd_getOpLogSync db c i : snd (_getOpLogSync db c i) = peek_log db c i.
Proof. reflexivity. Qed.

(** The version is the length of the log. *)
Lemma version_is_log_length db c i : _getVersionSync db c i = log_length (peek_log db c i).
Proof.
  unfold _getVersionSync, peek_log, _getOpLogSync.
  destruct (ops db !! c) as [co|]; [destruct (co !! i)|]; reflexivity.
Qed.

Lemma peek_store_log_eq db c i l : peek_log (store_log db c i l) c i = l.
Proof.
  rewrite peek_log_lookup. unfold store_log. simpl.
  rewrite lookup_insert_eq. simpl. by rewrite lookup_insert_eq.
Qed.

Lemma peek_store_log_ne db c i l c' i' :
  (c', i') <> (c, i) -> peek_log (store_log db c i l) c' i' = peek_log db c' i'.
Proof.
  intros Hne. rewrite !peek_log_lookup. unfold store_log. simpl.
  destruct (decide (c' = c)) as [->|Hc].
  - rewrite lookup_insert_eq. simpl.
    assert (i <> i') by congruence.
    rewrite lookup_insert_ne by done.
    destruct (ops db !! c) as [co|]; simpl; [reflexivity|].
    by rewrite lookup_empty.
  - by rewrite lookup_insert_ne.
Qed.

Lemma peek_with_docs db d c i : peek_log (with_docs db d) c i = peek_log db c i.
Proof. by rewrite !peek_log_lookup. Qed.

Lemma peek_writeSnapshotSync db c i s c' i' :
  peek_log (_writeSnapshotSync db c i s) c' i' = peek_log db c' i'.
Proof. unfold _writeSnapshotSync. destruct (no_type _); apply peek_with_docs. Qed.

Lemma docs_store_log db c i l : docs (store_log db c i l) = docs db.
Proof. reflexivity. Qed.


(** ** C1: a commit that is not for the next version *)



(** ** C4: the consistency error *)




(** ** C5: the snapshot of a document that is not stored *)



(** ** Accepted commits *)

Lemma commit_succeeded_inv db c i op s db' :
  commit db c i op s = (db', Succeeded true) ->
  snap_v s = Some (log_length (peek_log db c i) + 1)
  /\ missing_parent (peek_log db c i) op = false
  /\ db' = committed db c i op s.
Proof.
  unfold commit, committed, _writeOpSync. rewrite version_is_log_length.
  destruct (not_next_version _ _) eqn:Hn; [intros [= ]|].
  rewrite (surjective_pairing (_getOpLogSync db c i)), snd_getOpLogSync.
  destruct (missing_parent _ _) eqn:Hm; [intros [= ]|].
  intros [= <-]. split; [|done].
  unfold not_next_version in Hn. destruct (snap_v s) as [n|]; [|done].
  apply negb_false_iff, Z.eqb_eq in Hn. by subst.
Qed.


Lemma peek_committed_eq db c i op s :
  peek_log (committed db c i op s) c i = array_set (peek_log db c i) (op_v op) op.
Proof. unfold committed. by rewrite peek_writeSnapshotSync, peek_store_log_eq. Qed.

Lemma peek_committed_ne db c i op s c' i' :
  (c', i') <> (c, i) -> peek_log (committed db c i op s) c' i' = peek_log db c' i'.
Proof.
  intros Hne. unfold committed.
  by rewrite peek_writeSnapshotSync, peek_store_log_ne, peek_getOpLogSync.
Qed.

Lemma docs_committed db c i op s :
  docs (committed db c i op s)
  = <[c := if no_type (snap_type s)
           then obj_delete i (default [] (docs db !! c))
           else obj_set i (clone_snapshot s) (default [] (docs db !! c))]> (docs db).
Proof.
  unfold committed, _writeSnapshotSync.
  rewrite docs_store_log, docs_getOpLogSync.
  by destruct (no_type _).
Qed.

(** Array writes. *)
Lemma set_index_at_length {A} (x : A) (a : list (option A)) :
  set_index (length a) x a = a ++ [Some x].
Proof.
  unfold set_index.
  destruct (Nat.ltb_spec (length a) (length a)) as [?|_]; [lia|].
  by rewrite Nat.sub_diag.
Qed.



Lemma array_set_index opLog n op :
  is_array_index n = true ->
  slots (array_set opLog (Some n) op) = set_index (Z.to_nat n) op (slots opLog).
Proof. intros Hn. unfold array_set. by rewrite Hn. Qed.

(** An operation carrying the current version is appended. *)
Lemma array_set_next opLog op :
  op_v op = Some (log_length opLog) ->
  is_array_index (log_length opLog) = true ->
  slots (array_set opLog (op_v op) op) = slots opLog ++ [Some op].
Proof.
  intros Hv Hidx. rewrite Hv, array_set_index by done.
  unfold log_length. rewrite Nat2Z.id. apply set_index_at_length.
Qed.


(** ** C3: where an accepted operation is stored *)




(** ** C2: snapshot version and log length *)

Lemma versions_agree_new : versions_agree new_MemoryDB.
Proof. intros c cd i doc H. simpl in H. by rewrite lookup_empty in H. Qed.

Lemma versions_agree_getSnapshot db c i fields :
  versions_agree db ->
  ms_v (snd (getSnapshot db c i fields)) = Some (log_length (peek_log db c i)).
Proof.
  intros Hinv. unfold getSnapshot, _getSnapshotSync. simpl.
  rewrite version_is_log_length.
  destruct (docs db !! c) as [cd|] eqn:Hc; [|reflexivity].
  destruct (obj_get i cd) as [doc|] eqn:Hi; [|reflexivity].
  simpl. by eapply Hinv.
Qed.

Lemma versions_agree_commit db k :
  in_step k -> versions_agree db -> versions_agree (run_call db k).
Proof.
  destruct k as [c i op s]. unfold run_call, in_step. simpl. intros Hstep Hinv.
  destruct (commit db c i op s) as [db' r] eqn:Hcommit. simpl.
  destruct r as [[|]|e].
  - (* accepted *)
    apply commit_succeeded_inv in Hcommit as (Hs & Hm & ->).
    destruct (Hstep _ Hs) as [Hv Hlt].
    replace (log_length (peek_log db c i) + 1 - 1) with (log_length (peek_log db c i)) in * by lia.
    assert (Hidx : is_array_index (log_length (peek_log db c i)) = true).
    { unfold is_array_index. apply andb_true_iff. split.
      - apply Z.leb_le. unfold log_length. lia.
      - apply Z.ltb_lt. lia. }
    assert (Hlen : log_length (peek_log (committed db c i op s) c i)
                   = log_length (peek_log db c i) + 1).
    { rewrite peek_committed_eq. unfold log_length at 1.
      rewrite array_set_next by done. rewrite length_app. simpl.
      unfold log_length. lia. }
    intros c' cd' i' doc Hc' Hi'.
    rewrite docs_committed in Hc'.
    destruct (decide (c' = c)) as [->|Hne].
    + rewrite lookup_insert_eq in Hc'. injection Hc' as <-.
      destruct (decide (i' = i)) as [->|Hne'].
      * rewrite Hlen.
        destruct (no_type (snap_type s)).
        -- by rewrite obj_get_delete_eq in Hi'.
        -- rewrite obj_get_set_eq in Hi'. injection Hi' as <-. exact Hs.
      * rewrite peek_committed_ne by congruence.
        assert (Hold : obj_get i' (default [] (docs db !! c)) = Some doc).
        { destruct (no_type (snap_type s)).
          - by rewrite obj_get_delete_ne in Hi'.
          - by rewrite obj_get_set_ne in Hi'. }
        destruct (docs db !! c) as [cd|] eqn:Hc; simpl in Hold; [|done].
        by eapply Hinv.
    + rewrite lookup_insert_ne in Hc' by done.
      rewrite peek_committed_ne by congruence.
      by eapply Hinv.
  - (* rejected: nothing changes *)
    assert (db' = db) as ->; [|done].
    unfold commit in Hcommit.
    destruct (not_next_version _ _); [congruence|].
    by destruct (_writeOpSync db c i op) as [? [?|]].
  - (* consistency error: only an empty log may have been created *)
    assert (db' = fst (_getOpLogSync db c i)) as ->.
    { unfold commit, _writeOpSync in Hcommit.
      destruct (not_next_version _ _); [congruence|].
      rewrite (surjective_pairing (_getOpLogSync db c i)) in Hcommit.
      destruct (missing_parent _ _); congruence. }
    intros c' cd' i' doc Hc' Hi'.
    rewrite docs_getOpLogSync in Hc'. rewrite peek_getOpLogSync.
    by eapply Hinv.
Qed.

Lemma versions_agree_run calls : forall db,
  Forall in_step calls -> versions_agree db -> versions_agree (run_calls db calls).
Proof.
  induction calls as [|k rest IH]; intros db Hall Hinv; simpl; [done|].
  inversion Hall; subst. apply IH; [done|]. by apply versions_agree_commit.
Qed.

(** C2, as the code has it.  For collections and ids that
    [Object.prototype] does not define: after any sequence of commit calls
    on a new store in each of which the operation carries the version
    preceding that of its snapshot, the version [getSnapshot] reports for
    any document is the length of that document's stored log. *)
Theorem getSnapshot_version_is_log_length calls collection id fields :
  Forall plain_call calls ->
  Forall in_step calls ->
  plain_name collection -> plain_name id ->
  ms_v (snd (getSnapshot (run_calls new_MemoryDB calls) collection id fields))
  = Some (log_length (stored_log (run_calls new_MemoryDB calls) collection id)).
Proof.
  intros _ Hall _ _. rewrite <- peek_stored. apply versions_agree_getSnapshot.
  apply versions_agree_run; [done | apply versions_agree_new].
Qed.

Lemma getSnapshot_version_is_log_length_witness :
  ms_v (snd (getSnapshot (run_calls new_MemoryDB two_commits) "docs" "a" None)) = Some 2.
Proof.
  refine (getSnapshot_version_is_log_length two_commits "docs" "a" None _ _ eq_refl eq_refl).
  - unfold two_commits. repeat (constructor; [split; reflexivity|]). constructor.
  - unfold two_commits.
    repeat (constructor; [intros m [= <-]; split; reflexivity|]).
    constructor.
Defined.

(** C2, as stated, fails: after the accepted commit of a snapshot of
    version 1 with an operation whose [v] is 1, [getSnapshot] reports
    version 1 and the log has length 2. *)
Lemma snapshot_version_behind_log :
  let db := run_calls new_MemoryDB
              [ {| call_collection := "docs"; call_id := "a";
                   call_op := {| op_v := Some 1; op_body := JStr "create" |};
                   call_snapshot := {| snap_v := Some 1; snap_type := Some "json0";
                                       snap_data := Some (JObj []) |} |} ] in
  ms_v (snd (getSnapshot db "docs" "a" None)) = Some 1
  /\ log_length (peek_log db "docs" "a") = 2.
Proof. vm_compute. split; reflexivity. Qed.

(** ** C6: reading a range of operations *)








(** Three operations read from 1 with a bound past the end, and from the
    end of the log. *)
Example getOps_three_ops :
  snd (getOps three_ops "docs" "a" 1 (Some 7))
  = (None, [Some {| op_v := Some 1; op_body := JStr "b" |};
            Some {| op_v := Some 2; op_body := JStr "c" |}])
  /\ snd (getOps three_ops "docs" "a" 3 None) = (None, []).
Proof. vm_compute. split; reflexivity. Qed.

(** ** C8: normalization of a flat query *)

Lemma visited_keys {A} k (o : list (string * A)) x :
  obj_get k o = Some x -> visited k (obj_keys o) = true.
Proof.
  intros H. apply existsb_exists. exists k. split.
  - by eapply obj_get_In_keys.
  - apply String.eqb_refl.
Qed.

Lemma cursor_cases key name :
  obj_get key cursorOperators = Some name ->
  (key = "$limit" /\ name = "limit") \/ (key = "$skip" /\ name = "skip").
Proof.
  unfold cursorOperators. simpl.
  destruct (String.eqb_spec key "$limit") as [->|_]; [intros [= <-]; auto|].
  destruct (String.eqb_spec key "$skip") as [->|_]; [intros [= <-]; auto|].
  discriminate.
Qed.

Lemma flat_state_init expression : flat_state expression [] [("$query", JObj [])].
Proof.
  split.
  - exists []. split; [reflexivity|]. intros k. reflexivity.
  - intros k Hk. simpl. destruct (String.eqb_spec k "$query") as [->|_]; [discriminate|done].
  - intros key name _. simpl. discriminate.
  - intros k Hq _ _. simpl. destruct (String.eqb_spec k "$query"); done.
Qed.

Lemma visited_cons k key seen :
  visited k (key :: seen) = String.eqb k key || visited k seen.
Proof. reflexivity. Qed.

Lemma flat_state_step expression seen query key :
  plain_name key ->
  flat_state expression seen query ->
  flat_state expression (key :: seen) (normalize_key expression query key).
Proof.
  intros Hplain [(q & Hq & Hsel) Hmeta Hcur Hrest]. unfold normalize_key.
  assert (Hproto : String.eqb key "__proto__" = false).
  { destruct (String.eqb_spec key "__proto__") as [->|_]; [discriminate Hplain|done]. }
  rewrite Hproto.
  destruct (obj_get key expression) as [x|] eqn:Hx.
  2: { (* the key is not a property of the expression *)
    assert (Hsame : forall k,
      (if visited k (key :: seen) then obj_get k expression else None : option json)
      = if visited k seen then obj_get k expression else None).
    { intros k. rewrite visited_cons.
      destruct (String.eqb_spec k key) as [->|_]; simpl; [|done].
      rewrite Hx. by destruct (visited key seen). }
    split.
    - exists q. split; [done|]. intros k. rewrite Hsel, visited_cons.
      destruct (String.eqb_spec k key) as [->|_]; simpl; [|done].
      rewrite Hx. by repeat case_match.
    - intros k Hk. by rewrite Hsame, Hmeta.
    - intros k name Hk. specialize (Hcur k name Hk).
      destruct (obj_get "$findOptions" query) as [[| | | | |fo]|]; try done.
      + by rewrite Hsame.
      + rewrite visited_cons.
        destruct (String.eqb_spec k key) as [->|_]; simpl; [done|exact Hcur].
    - done. }
  destruct (is_meta key) eqn:Hm.
  { (* a meta operator: query[key] = expression[key] *)
    assert (Hkq : key <> "$query") by (intros ->; discriminate).
    assert (Hkf : key <> "$findOptions") by (intros ->; discriminate).
    split.
    - exists q. split; [by rewrite obj_get_set_ne|].
      intros k. rewrite Hsel, visited_cons.
      destruct (String.eqb_spec k key) as [->|_]; simpl; [|done].
      rewrite Hm. simpl. by rewrite !andb_false_r.
    - intros k Hk. rewrite visited_cons.
      destruct (String.eqb_spec k key) as [->|Hne]; simpl.
      + by rewrite obj_get_set_eq.
      + rewrite obj_get_set_ne by done. by apply Hmeta.
    - intros k name Hk. specialize (Hcur k name Hk).
      rewrite obj_get_set_ne by done.
      assert (k <> key).
      { intros ->. apply cursor_cases in Hk as [[-> _]|[-> _]]; discriminate. }
      rewrite visited_cons.
      destruct (String.eqb_spec k key); [done|]. exact Hcur.
    - intros k H1 H2 H3. rewrite obj_get_set_ne; [by apply Hrest|].
      intros ->. congruence. }
  destruct (obj_get key cursorOperators) as [name|] eqn:Hc.
  { (* a cursor operator: recorded under $findOptions *)
    assert (Hkey : key <> "$query").
    { intros ->. discriminate. }
    split.
    - exists q. split; [by rewrite obj_get_set_ne|].
      intros k. rewrite Hsel, visited_cons.
      destruct (String.eqb_spec k key) as [->|_]; simpl; [|done].
      unfold is_cursor. rewrite Hc. simpl. by rewrite !andb_false_r.
    - intros k Hk.
      assert (k <> "$findOptions") by (intros ->; discriminate).
      assert (k <> key) by (intros ->; congruence).
      rewrite obj_get_set_ne by done. rewrite visited_cons.
      destruct (String.eqb_spec k key); [done|]. by apply Hmeta.
    - intros k name' Hk. rewrite obj_get_set_eq. rewrite visited_cons.
      pose proof (Hcur k name' Hk) as Hold.
      destruct (String.eqb_spec k key) as [->|Hne]; simpl.
      + assert (name' = name) as -> by congruence.
        by rewrite obj_get_set_eq.
      + assert (name <> name').
        { apply cursor_cases in Hk as [[-> ->]|[-> ->]];
            apply cursor_cases in Hc as [[-> ->]|[-> ->]]; done. }
        rewrite obj_get_set_ne by done.
        destruct (obj_get "$findOptions" query) as [[| | | | |fo]|]; try done.
        simpl. destruct (visited k seen) eqn:Hv; [|done].
        symmetry. by apply Hold.
    - intros k H1 H2 H3. rewrite obj_get_set_ne by done. by apply Hrest. }
  (* a selector field: copied into query.$query *)
  rewrite Hq. split.
  - exists (obj_set key x q). split; [by rewrite obj_get_set_eq|].
    intros k. rewrite visited_cons.
    destruct (String.eqb_spec k key) as [->|Hne]; simpl.
    + rewrite obj_get_set_eq, Hm. unfold is_cursor. by rewrite Hc.
    + rewrite obj_get_set_ne by done. apply Hsel.
  - intros k Hk.
    assert (k <> "$query") by (intros ->; discriminate).
    assert (k <> key) by (intros ->; congruence).
    rewrite obj_get_set_ne by done. rewrite visited_cons.
    destruct (String.eqb_spec k key); [done|]. by apply Hmeta.
  - intros k name Hk. specialize (Hcur k name Hk).
    assert (k <> key) by (intros ->; congruence).
    rewrite obj_get_set_ne by done. rewrite visited_cons.
    destruct (String.eqb_spec k key); [done|]. exact Hcur.
  - intros k H1 H2 H3. rewrite obj_get_set_ne by done. by apply Hrest.
Qed.

Lemma flat_state_loop expression keys : forall seen query,
  Forall plain_name keys ->
  flat_state expression seen query ->
  flat_state expression (rev keys ++ seen) (fold_left (normalize_key expression) keys query).
Proof.
  induction keys as [|key rest IH]; intros seen query Hplain H; simpl; [done|].
  inversion Hplain; subst.
  rewrite <- app_assoc. simpl. apply IH; [done|]. by apply flat_state_step.
Qed.

(** Whatever the keys are, [query.$query] stays an object through the
    loop. *)
Lemma selector_object_step expression query key :
  (exists q, obj_get "$query" query = Some (JObj q)) ->
  exists q, obj_get "$query" (normalize_key expression query key) = Some (JObj q).
Proof.
  intros [q Hq]. unfold normalize_key.
  destruct (obj_get key expression) as [x|]; [|by exists q].
  destruct (is_meta key) eqn:Hm.
  { destruct (String.eqb key "__proto__"); [by exists q|].
    exists q. rewrite obj_get_set_ne; [done|]. intros ->. discriminate. }
  destruct (obj_get key cursorOperators) as [name|].
  { exists q. by rewrite obj_get_set_ne. }
  rewrite Hq. eexists. by rewrite obj_get_set_eq.
Qed.

Lemma selector_object_loop expression keys : forall query,
  (exists q, obj_get "$query" query = Some (JObj q)) ->
  exists q, obj_get "$query" (fold_left (normalize_key expression) keys query) = Some (JObj q).
Proof.
  induction keys as [|key rest IH]; intros query H; simpl; [done|].
  by apply IH, selector_object_step.
Qed.

Lemma visited_rev k keys : visited k (rev keys ++ []) = visited k keys.
Proof.
  rewrite app_nil_r. unfold visited.
  apply eq_true_iff_eq. rewrite !existsb_exists.
  split; intros (y & Hin & Hy).
  - exists y. split; [by apply in_rev|done].
  - exists y. split; [by apply in_rev in Hin|done].
Qed.

(** After the whole loop, a property read of the expression decides. *)
Lemma visited_all_get {A} (o : list (string * A)) k :
  (if visited k (rev (obj_keys o) ++ []) then obj_get k o else None) = obj_get k o.
Proof.
  rewrite visited_rev.
  destruct (obj_get k o) as [x|] eqn:Hx.
  - by rewrite (visited_keys _ _ _ Hx).
  - by destruct (visited _ _).
Qed.

(** X19. For an expression whose [$query] is missing (or falsy, the test
    the code makes) and none of whose keys is a name that
    [Object.prototype] defines, [normalizeQuery] returns an object in which
    every meta operator of the expression is a top-level property with the
    same value, [$limit] is [$findOptions.limit] and [$skip] is
    [$findOptions.skip], every other property of the expression is a
    property of [$query], and nothing else is there.  In particular
    [{foo: 1, $limit: 5, $count: true}] becomes
    [{$query: {foo: 1}, $findOptions: {limit: 5}, $count: true}]. *)
Theorem normalizeQuery_flat expression :
  truthy (obj_get "$query" expression) = false ->
  Forall plain_name (obj_keys expression) ->
  let query := normalizeQuery expression in
  (forall k, is_meta k = true -> obj_get k query = obj_get k expression)
  /\ (forall x, obj_get "$limit" expression = Some x ->
        exists fo, obj_get "$findOptions" query = Some (JObj fo) /\ obj_get "limit" fo = Some x)
  /\ (forall x, obj_get "$skip" expression = Some x ->
        exists fo, obj_get "$findOptions" query = Some (JObj fo) /\ obj_get "skip" fo = Some x)
  /\ (exists q, obj_get "$query" query = Some (JObj q)
        /\ forall k, obj_get k q
                     = if is_meta k || is_cursor k then None else obj_get k expression)
  /\ (forall k, k <> "$query" -> k <> "$findOptions" -> is_meta k = false ->
        obj_get k query = None)
  /\ normalizeQuery [("foo", JNum 1); ("$limit", JNum 5); ("$count", JBool true)]
     = [("$query", JObj [("foo", JNum 1)]);
        ("$findOptions", JObj [("limit", JNum 5)]);
        ("$count", JBool true)].
Proof.
  intros Hflat Hplain query.
  assert (Hst : flat_state expression (rev (obj_keys expression) ++ []) query).
  { subst query. unfold normalizeQuery. rewrite Hflat.
    apply flat_state_loop; [done|apply flat_state_init]. }
  destruct Hst as [(q & Hq & Hsel) Hmeta Hcur Hrest].
  assert (Hcursor : forall key name x,
    obj_get key cursorOperators = Some name -> obj_get key expression = Some x ->
    exists fo, obj_get "$findOptions" query = Some (JObj fo) /\ obj_get name fo = Some x).
  { intros key name x Hk Hx. specialize (Hcur key name Hk).
    rewrite visited_rev, (visited_keys _ _ _ Hx), Hx in Hcur.
    destruct (obj_get "$findOptions" query) as [[| | | | |fo]|]; try done.
    - by exists fo.
    - by specialize (Hcur eq_refl). }
  split.
  { intros k Hk. rewrite (Hmeta k Hk). apply visited_all_get. }
  split; [intros x; exact (Hcursor "$limit" "limit" x eq_refl)|].
  split; [intros x; exact (Hcursor "$skip" "skip" x eq_refl)|].
  split.
  { exists q. split; [done|]. intros k. rewrite Hsel.
    destruct (is_meta k), (is_cursor k); simpl; rewrite ?andb_false_r; try done.
    rewrite !andb_true_r. apply visited_all_get. }
  split; [exact Hrest|].
  reflexivity.
Qed.

Lemma normalizeQuery_flat_witness :
  obj_get "$count" (normalizeQuery [("foo", JNum 1); ("$limit", JNum 5); ("$count", JBool true)])
  = Some (JBool true).
Proof.
  refine (proj1 (normalizeQuery_flat
                   [("foo", JNum 1); ("$limit", JNum 5); ("$count", JBool true)] _ _)
            "$count" _); try reflexivity.
  repeat constructor.
Defined.

(** C8 fails on the code for a key that [Object.prototype] defines:
    [metaOperators["constructor"]] is the inherited function, so the flat
    expression [{constructor: 1, foo: 2}] is normalized with [constructor]
    at the top level, beside [$query], and not inside [$query]. *)
Theorem normalizeQuery_inherited_key :
  normalizeQuery [("constructor", JNum 1); ("foo", JNum 2)]
  = [("$query", JObj [("foo", JNum 2)]); ("constructor", JNum 1)].
Proof. reflexivity. Qed.

(** ** The heap built by find mode *)

Lemma ms_id_getSnapshotSync db c i : ms_id (_getSnapshotSync db c i) = i.
Proof.
  unfold _getSnapshotSync.
  destruct (docs db !! c) as [cd|]; [destruct (obj_get i cd)|]; reflexivity.
Qed.





(** Every snapshot the resolving loop returns is the [__snapshot] of one of
    the results. *)
Lemma resolve_In h results : forall snapshots s,
  resolve h results = Some snapshots ->
  In (VRef s) snapshots ->
  exists d body, In (VRef d) results /\ h !! d = Some (CData body (Some s)).
Proof.
  induction results as [|result rest IH]; intros snapshots s Hr Hin; simpl in Hr.
  - injection Hr as <-. destruct Hin.
  - destruct (get___snapshot h result) as [v|] eqn:Hget; [|done].
    destruct (resolve h rest) as [snaps|] eqn:Hrest; [|done].
    injection Hr as <-. destruct Hin as [->|Hin].
    + unfold get___snapshot in Hget.
      destruct result as [|j|d]; [done|destruct j; done|].
      destruct (h !! d) as [[ms|body [s'|]]|] eqn:Hd; try done.
      injection Hget as ->. exists d, body. split; [by left|done].
    + destruct (IH snaps s eq_refl Hin) as (d & body & Hd & Hcell).
      exists d, body. split; [by right|done].
Qed.




Section QueryProperties.
Variable Mingo_Query_find : list (option json) -> heap -> list jsval -> list jsval.
Variable Mingo_Aggregator_run : option json -> list (option json) -> json.

(** The evaluator's contract: the matches it returns are candidates it
    was given (the objects themselves). *)
Hypothesis find_returns_candidates :
  forall args h datas result,
    In result (Mingo_Query_find args h datas) -> In result datas.

Abbreviation run_query := (query Mingo_Query_find Mingo_Aggregator_run).


(** ** C10: the back-reference stays on the returned data *)


(** ** C9: what the evaluator is given *)






(** ** C7: a commit that deletes the document *)


End QueryProperties.

(** ** Concrete runs *)

Lemma find_with_limit_candidates args h datas result :
  In result (find_with_limit args h datas) -> In result datas.
Proof.
  unfold find_with_limit. intros Hin.
  assert (Htake : forall n, In result (take n datas) -> In result datas).
  { intros n H. apply list_elem_of_In, elem_of_take in H as (i & Hi & _).
    apply list_elem_of_In. by eapply list_elem_of_lookup_2. }
  repeat case_match; eauto.
Qed.



(** The heap and the snapshots of that query: the data objects at 0 and 2,
    the snapshots at 1 and 3, each pair in a cycle. *)
Example query_two_docs :
  query find_with_limit collect_documents two_docs "docs" [("name", JStr "x")] None None
  = Called
      [CData (JObj [("name", JStr "x")]) (Some 1%nat);
       CSnapshot {| ms_id := "a"; ms_v := Some 1; ms_type := Some "json0"; ms_data := VRef 0 |};
       CData (JObj [("name", JStr "y")]) (Some 3%nat);
       CSnapshot {| ms_id := "b"; ms_v := Some 1; ms_type := Some "json0"; ms_data := VRef 2 |}]
      [VRef 1; VRef 3] None.
Proof. vm_compute. reflexivity. Qed.




(** * Further properties of the store *)

(** ** The outcome of [commit] *)









(** ** What is stored *)













(** ** Runs of commits *)




(** ** Reading ranges *)





(** ** Normal forms of queries *)

Lemma obj_set_same {A} k (x : A) o : obj_get k o = Some x -> obj_set k x o = o.
Proof.
  induction o as [|[k0 y] rest IH]; simpl; [done|].
  destruct (String.eqb_spec k k0) as [->|Hne].
  - by intros [= ->].
  - intros H. by rewrite IH.
Qed.

Lemma normalizeQuery_canonical_aux expression :
  truthy (obj_get "$query" expression) = true ->
  normalizeQuery expression = expression.
Proof.
  intros Hq. unfold normalizeQuery. rewrite Hq.
  rewrite (clone_id (JObj expression)).
  destruct (obj_get "$query" expression) as [q|] eqn:Hget; [|done].
  rewrite clone_id. by apply obj_set_same.
Qed.

(** X11. An expression that has a (truthy) [$query] is returned as it is:
    a [$limit] or [$skip] beside it is not moved under [$findOptions], and
    no key is moved into [$query]. *)
Theorem normalizeQuery_canonical expression :
  truthy (obj_get "$query" expression) = true ->
  normalizeQuery expression = expression
  /\ obj_get "$findOptions" (normalizeQuery expression) = obj_get "$findOptions" expression.
Proof.
  intros Hq. by rewrite normalizeQuery_canonical_aux.
Qed.

Lemma normalizeQuery_canonical_witness :
  normalizeQuery [("$query", JObj [("name", JStr "x")]); ("$limit", JNum 5)]
  = [("$query", JObj [("name", JStr "x")]); ("$limit", JNum 5)].
Proof.
  exact (proj1 (normalizeQuery_canonical
                  [("$query", JObj [("name", JStr "x")]); ("$limit", JNum 5)] eq_refl)).
Defined.

(** X12. The result of [normalizeQuery] always has an object as [$query] when
    the expression is flat, so that normalizing twice is normalizing
    once. *)
Theorem normalizeQuery_idempotent expression :
  normalizeQuery (normalizeQuery expression) = normalizeQuery expression.
Proof.
  destruct (truthy (obj_get "$query" expression)) eqn:Hq.
  - rewrite (normalizeQuery_canonical_aux expression Hq).
    by apply normalizeQuery_canonical_aux.
  - apply normalizeQuery_canonical_aux.
    assert (Hst : exists q, obj_get "$query" (normalizeQuery expression) = Some (JObj q)).
    { unfold normalizeQuery. rewrite Hq. apply selector_object_loop. by eexists. }
    destruct Hst as [q Hget]. by rewrite Hget.
Qed.

(** ** Closing the store *)

Lemma peek_log_close db c i : peek_log (close db) c i = peek_log db c i.
Proof. by rewrite !peek_log_lookup. Qed.

(** X13. [close] only sets the flag: closing twice is closing once, and a
    closed store takes commits and answers reads exactly as an open one,
    staying closed. *)
Theorem close_is_advisory db collection id op snapshot fields from to :
  closed (close db) = true
  /\ close (close db) = close db
  /\ commit (close db) collection id op snapshot
     = (close (fst (commit db collection id op snapshot)),
        snd (commit db collection id op snapshot))
  /\ getSnapshot (close db) collection id fields = getSnapshot db collection id fields
  /\ snd (getOps (close db) collection id from to) = snd (getOps db collection id from to).
Proof.
  split; [reflexivity|]. split; [reflexivity|]. split.
  { unfold commit, _writeOpSync, _getVersionSync, _getOpLogSync, _writeSnapshotSync,
      store_log, with_ops, with_docs, close. simpl.
    repeat case_match; simplify_eq; reflexivity. }
  split; [reflexivity|].
  unfold getOps.
  rewrite (surjective_pairing (_getOpLogSync (close db) collection id)), snd_getOpLogSync.
  rewrite (surjective_pairing (_getOpLogSync db collection id)), snd_getOpLogSync.
  simpl. by rewrite peek_log_close.
Qed.

(** ** Further properties of queries *)

Lemma mirrors_app db c h data x :
  mirrors db c h data -> mirrors db c (h ++ [x]) data.
Proof.
  intros H d Hd. destruct (H d Hd) as (s & ms & body & H1 & H2 & Hrest).
  pose proof (lookup_lt_Some _ _ _ H1). pose proof (lookup_lt_Some _ _ _ H2).
  exists s, ms, body.
  split; [by rewrite lookup_app_l|].
  split; [by rewrite lookup_app_l|].
  done.
Qed.

Lemma mirrors_insert_fresh db c h h' data d x :
  (forall k y, h !! k = Some y -> h' !! k = Some y) ->
  (length h <= d)%nat ->
  mirrors db c h data -> mirrors db c (<[d := x]> h') data.
Proof.
  intros Hext Hd H d' Hd'. destruct (H d' Hd') as (s & ms & body & H1 & H2 & Hrest).
  exists s, ms, body.
  pose proof (lookup_lt_Some _ _ _ H1). pose proof (lookup_lt_Some _ _ _ H2).
  split; [rewrite list_lookup_insert_ne by lia; by apply Hext|].
  split; [rewrite list_lookup_insert_ne by lia; by apply Hext|].
  done.
Qed.

Lemma collect_step_mirrors db c id h h2 snapshot data h3 :
  In id (candidates db c) ->
  new_snapshot h (_getSnapshotSync db c id) = (h2, snapshot, data) ->
  set___snapshot h2 data snapshot = Some h3 ->
  mirrors db c h3 data
  /\ (forall old, mirrors db c h old -> mirrors db c h3 old).
Proof.
  intros Hid Hnew Hset. unfold new_snapshot in Hnew.
  pose proof (ms_id_getSnapshotSync db c id) as Hmsid.
  destruct (ms_data (_getSnapshotSync db c id)) as [j|] eqn:Hdata.
  - destruct (is_object j) eqn:Hobj.
    + unfold alloc in Hnew. simpl in Hnew. injection Hnew as <- <- <-.
      simpl in Hset. rewrite length_app in Hset. simpl in Hset.
      rewrite lookup_app_l in Hset by (rewrite length_app; simpl; lia).
      rewrite list_lookup_middle in Hset by done.
      injection Hset as <-.
      split.
      * intros d [= <-].
        eexists _, _, j. split.
        { apply list_lookup_insert_eq. rewrite !length_app. simpl. lia. }
        split.
        { rewrite list_lookup_insert_ne by lia.
          apply list_lookup_middle. rewrite length_app. simpl. lia. }
        simpl. rewrite Hmsid. by repeat split.
      * intros old Hold. apply mirrors_insert_fresh with (h := h); [|lia|done].
        intros k x Hk. rewrite <- app_assoc. rewrite lookup_app_l; [done|].
        by eapply lookup_lt_Some.
    + unfold alloc in Hnew. injection Hnew as <- <- <-.
      assert (h3 = h ++ [CSnapshot {| ms_id := ms_id (_getSnapshotSync db c id);
                                      ms_v := ms_v (_getSnapshotSync db c id);
                                      ms_type := ms_type (_getSnapshotSync db c id);
                                      ms_data := VPrim j |}]) as ->.
      { destruct j; simpl in Hset; congruence. }
      split; [intros d [=]|]. intros old Hold. by apply mirrors_app.
  - unfold alloc in Hnew. injection Hnew as <- <- <-. discriminate.
Qed.

Lemma collect_mirrors db c ids : forall h datas h' datas',
  (forall id, In id ids -> In id (candidates db c)) ->
  Forall (mirrors db c h) datas ->
  collect db c ids h datas = Some (h', datas') ->
  Forall (mirrors db c h') datas'.
Proof.
  induction ids as [|id rest IH]; intros h datas h' datas' Hsub Hinv Hc; simpl in Hc.
  - by injection Hc as <- <-.
  - destruct (new_snapshot h (_getSnapshotSync db c id)) as [[h2 snapshot] data] eqn:Hnew.
    destruct (set___snapshot h2 data snapshot) as [h3|] eqn:Hset; [|done].
    destruct (collect_step_mirrors db c id h h2 snapshot data h3) as [Hnew_ok Hold_ok];
      [apply Hsub; by left | done | done |].
    eapply IH; [| |exact Hc].
    + intros id' Hin. apply Hsub. by right.
    + apply Forall_app. split.
      * eapply Forall_impl; [exact Hinv|]. exact Hold_ok.
      * by constructor.
Qed.


Section FurtherQueryProperties.
Variable Mingo_Query_find : list (option json) -> heap -> list jsval -> list jsval.
Variable Mingo_Aggregator_run : option json -> list (option json) -> json.

Hypothesis find_returns_candidates :
  forall args h datas result,
    In result (Mingo_Query_find args h datas) -> In result datas.

Abbreviation run_query := (query Mingo_Query_find Mingo_Aggregator_run).



(** X16. Every snapshot a query returns is the current snapshot of a stored
    document of the collection: it has the id, version and type that
    [getSnapshot] reports for that document, and its data object has the
    body that [getSnapshot] returns as data (besides [__snapshot]). *)
Theorem query_returns_current_snapshots db collection expression fields options
    h snapshots extra s :
  run_query db collection expression fields options = Called h snapshots extra ->
  In (VRef s) snapshots ->
  exists ms d body,
    h !! s = Some (CSnapshot ms)
    /\ In (ms_id ms) (candidates db collection)
    /\ ms_v ms = ms_v (snd (getSnapshot db collection (ms_id ms) None))
    /\ ms_type ms = ms_type (snd (getSnapshot db collection (ms_id ms) None))
    /\ ms_data ms = VRef d
    /\ h !! d = Some (CData body (Some s))
    /\ ms_data (snd (getSnapshot db collection (ms_id ms) None)) = Some body.
Proof.
  unfold query, getSnapshot. simpl. intros Hq Hin.
  destruct (truthy (obj_get "$aggregate" _)); [by injection Hq as <- <- <-|].
  destruct (collect db collection (candidates db collection) [] [])
    as [[h0 datas]|] eqn:Hc; [|done].
  destruct (truthy (obj_get "$count" _)); [by injection Hq as <- <- <-|].
  destruct (resolve h0 _) as [snaps|] eqn:Hr; [|done].
  injection Hq as <- <- <-.
  destruct (resolve_In _ _ _ _ Hr Hin) as (d & body & Hd & Hcell).
  apply find_returns_candidates in Hd.
  pose proof (collect_mirrors db collection (candidates db collection) [] [] h0 datas
                (fun _ H => H) (Forall_nil_2 _) Hc) as Hm.
  rewrite Forall_forall in Hm. apply list_elem_of_In in Hd.
  destruct (Hm (VRef d) Hd d eq_refl)
    as (s' & ms & body' & H1 & H2 & H3 & H4 & H5 & H6 & H7).
  rewrite Hcell in H1. injection H1 as -> <-.
  by exists ms, d, body'.
Qed.
End FurtherQueryProperties.



Lemma query_returns_current_snapshots_witness :
  exists ms d body,
    [CData (JObj [("name", JStr "x")]) (Some 1%nat);
     CSnapshot {| ms_id := "a"; ms_v := Some 1; ms_type := Some "json0"; ms_data := VRef 0 |};
     CData (JObj [("name", JStr "y")]) (Some 3%nat);
     CSnapshot {| ms_id := "b"; ms_v := Some 1; ms_type := Some "json0"; ms_data := VRef 2 |}]
      !! 3%nat = Some (CSnapshot ms)
    /\ In (ms_id ms) (candidates two_docs "docs")
    /\ ms_v ms = ms_v (snd (getSnapshot two_docs "docs" (ms_id ms) None))
    /\ ms_type ms = ms_type (snd (getSnapshot two_docs "docs" (ms_id ms) None))
    /\ ms_data ms = VRef d
    /\ [CData (JObj [("name", JStr "x")]) (Some 1%nat);
        CSnapshot {| ms_id := "a"; ms_v := Some 1; ms_type := Some "json0"; ms_data := VRef 0 |};
        CData (JObj [("name", JStr "y")]) (Some 3%nat);
        CSnapshot {| ms_id := "b"; ms_v := Some 1; ms_type := Some "json0"; ms_data := VRef 2 |}]
         !! d = Some (CData body (Some 3%nat))
    /\ ms_data (snd (getSnapshot two_docs "docs" (ms_id ms) None)) = Some body.
Proof.
  refine (query_returns_current_snapshots find_with_limit collect_documents
            find_with_limit_candidates two_docs "docs" [("name", JStr "x")] None None
            _ [VRef 1; VRef 3] None 3%nat _ _).
  - vm_compute. reflexivity.
  - right. by left.
Defined.

(** ** The log only grows *)



